(** * Atlas word-chain game: the rules engine of [script.js]

    Shallow embedding of [normalizeInput], [playWord], [botMove], the
    [fetch] callback that loads [wordlist.json], [updateUI] and
    [setResult].

    Strings are modelled as Rocq [string]s, one [ascii] per code unit; for
    code units 0..255 the JavaScript [toLowerCase] only maps [A]..[Z] into
    the range [a]..[z], so the ASCII case mapping below gives the same
    result after the [/[^a-z]/g] filter.

    The globals [used] and [lastLetter] form the match state; the global
    [wordlist] (the [norm] fields of [wordlist.json], loaded once) is a
    Section variable.  [setResult] messages are modelled by the outcome
    types [play_msg] and [bot_msg]; the DOM elements the script touches
    form the [page] record.  [playWord] schedules [botMove] with [setTimeout]; the
    scheduled call is modelled as a separate step.  [Math.random()] is a
    binary64 double [r] in [[0,1)] supplied to [botMove]; the product with
    the candidate count is rounded to nearest, ties to even, as in
    JavaScript, before [Math.floor]. *)

From Stdlib Require Import String Ascii List Bool ZArith Lia.
Import ListNotations.

Local Open Scope string_scope.

(** ** JavaScript string primitives *)

(** [c] is one of [a]..[z]. *)
Definition is_az (c : ascii) : bool :=
  let n := nat_of_ascii c in (97 <=? n)%nat && (n <=? 122)%nat.

(** Case mapping of one code unit: [A]..[Z] to [a]..[z]. *)
Definition ascii_lower (c : ascii) : ascii :=
  let n := nat_of_ascii c in
  if (65 <=? n)%nat && (n <=? 90)%nat then ascii_of_nat (n + 32) else c.

(** [s.toLowerCase()] *)
Fixpoint toLowerCase (s : string) : string :=
  match s with
  | EmptyString => EmptyString
  | String c s' => String (ascii_lower c) (toLowerCase s')
  end.

(** [s.replace(/[^a-z]/g, "")] *)
Fixpoint remove_non_az (s : string) : string :=
  match s with
  | EmptyString => EmptyString
  | String c s' => if is_az c then String c (remove_non_az s') else remove_non_az s'
  end.

(** White space and line terminators removed by [String.prototype.trim]
    (those among code units 0..255). *)
Definition is_js_space (c : ascii) : bool :=
  let n := nat_of_ascii c in
  ((9 <=? n)%nat && (n <=? 13)%nat) || (n =? 32)%nat || (n =? 160)%nat.

Fixpoint trim_start (s : string) : string :=
  match s with
  | EmptyString => EmptyString
  | String c s' => if is_js_space c then trim_start s' else s
  end.

(** [s.trim()] *)
Definition trim (s : string) : string :=
  string_of_list_ascii
    (rev (list_ascii_of_string
            (trim_start (string_of_list_ascii
                           (rev (list_ascii_of_string (trim_start s))))))).

(** [w[0]]: [undefined] ([None]) on the empty string. *)
Definition first_char (w : string) : option ascii :=
  match w with
  | EmptyString => None
  | String c _ => Some c
  end.

(** [w.slice(-1)]: the last code unit, or [""] on the empty string. *)
Fixpoint slice_last (w : string) : string :=
  match w with
  | EmptyString => EmptyString
  | String c EmptyString => String c EmptyString
  | String _ w' => slice_last w'
  end.

(** [w[0] === l] for a string [w] and [l : string | null]: [undefined]
    equals neither [null] nor a string. *)
Definition first_is (w : string) (l : option string) : bool :=
  match first_char w, l with
  | Some c, Some l' => String.eqb (String c EmptyString) l'
  | _, _ => false
  end.

(** [xs.includes(w)] *)
Definition includes (xs : list string) (w : string) : bool :=
  existsb (String.eqb w) xs.

(** [xs[i]] for an integer index [i] ([undefined] out of range). *)
Definition js_index {A} (xs : list A) (i : Z) : option A :=
  if (i <? 0)%Z then None else nth_error xs (Z.to_nat i).

(** ** IEEE doubles for [Math.random() * n] *)

(** A binary64 double [dmant * 2^dexp]. *)
Record double := mkDouble {
  dmant : Z;
  dexp : Z
}.

(** The values [Math.random()] may return: every double in [[0,1)], that is
    [0 <= m < 2^53], [e >= -1074] and [m * 2^e < 1]. *)
Definition is_random_double (r : double) : bool :=
  (0 <=? dmant r)%Z && (dmant r <? 2^53)%Z && (-1074 <=? dexp r)%Z &&
  (if (0 <=? dexp r)%Z then (dmant r * 2^dexp r <? 1)%Z
   else (dmant r <? 2^(- dexp r))%Z).

(** Round-to-nearest, ties-to-even, of the exact non-negative product
    [M * 2^e] to a 53-bit significand: exact below [2^53], otherwise the
    low [s] bits are rounded off (the results met here are never
    subnormal once [M >= 2^53], since [e >= -1074]). *)
Definition round53 (M e : Z) : Z * Z :=
  if (M <? 2^53)%Z then (M, e)
  else
    let s := (Z.log2 M - 52)%Z in
    let q := (M / 2^s)%Z in
    let rem := (M mod 2^s)%Z in
    let half := (2^(s - 1))%Z in
    let q' := if (half <? rem)%Z then (q + 1)%Z
              else if (rem =? half)%Z then (if Z.odd q then (q + 1)%Z else q)
              else q in
    (q', (e + s)%Z).

(** [Math.floor] of the double [q * 2^E]. *)
Definition js_floor (d : Z * Z) : Z :=
  let '(q, E) := d in
  if (0 <=? E)%Z then (q * 2^E)%Z else (q / 2^(- E))%Z.

(** [normalizeInput] *)
Definition normalizeInput (word : string) : string :=
  remove_non_az (toLowerCase word).

(** [normalizeInput] on the list of code units. *)
Definition norm_list (l : list ascii) : list ascii := filter is_az (map ascii_lower l).

(** ** Match state and messages *)

Record state := mkState {
  used : list string;
  lastLetter : option string   (** [null] is [None] *)
}.

(** [let used = []; let lastLetter = null;] *)
Definition init : state := mkState [] None.

(** The messages [playWord] passes to [setResult]. *)
Inductive play_msg :=
| Msg_PleaseEnter                (** "Please enter a country." *)
| Msg_InvalidCountry             (** "Invalid country!" *)
| Msg_AlreadyUsed                (** "Already used!" *)
| Msg_MustStart (l : string)     (** "Must start with 'l'." *)
| Msg_YouPlayed (w : string).    (** "You played: ..." *)

(** The messages [botMove] passes to [setResult]. *)
Inductive bot_msg :=
| Msg_BotStuck                   (** "You win! Bot stuck." *)
| Msg_BotPlayed (w : string).    (** "Bot played: ..." *)

Section Engine.

Variable wordlist : list string.

(** [playWord], with [value] the content of the [userWord] field. *)
Definition playWord (s : state) (value : string) : state * play_msg :=
  let input := trim value in
  let normWord := normalizeInput input in
  if String.eqb normWord "" then (s, Msg_PleaseEnter)
  else if negb (includes wordlist normWord) then (s, Msg_InvalidCountry)
  else if includes (used s) normWord then (s, Msg_AlreadyUsed)
  else match lastLetter s with
       | Some l =>
           if negb (String.eqb l "") && negb (first_is normWord (Some l))
           then (s, Msg_MustStart l)
           else (mkState (used s ++ [normWord]) (Some (slice_last normWord)),
                 Msg_YouPlayed normWord)
       | None =>
           (mkState (used s ++ [normWord]) (Some (slice_last normWord)),
            Msg_YouPlayed normWord)
       end.

(** [wordlist.filter(w => w[0] === lastLetter && !used.includes(w))] *)
Definition bot_candidates (s : state) : list string :=
  filter (fun w => first_is w (lastLetter s) && negb (includes (used s) w))
         wordlist.

(** [Math.floor(r * candidates.length)] for the double [r]: the length
    (below [2^32]) is an exact double, the product is rounded to the
    nearest double, then floored. *)
Definition bot_index (r : double) (n : nat) : Z :=
  js_floor (round53 (dmant r * Z.of_nat n) (dexp r)).

(** [botMove], with [r] the value of [Math.random()].  [None] is the run
    aborting with a [TypeError] when the index is out of range: the read
    gives [undefined], which is pushed onto [used] before
    [undefined.slice(-1)] throws.  The state left behind is not modelled;
    [bot_index_bound] shows the branch is unreachable for every value
    [Math.random()] can return. *)
Definition botMove (s : state) (r : double) : option (state * bot_msg) :=
  let candidates := bot_candidates s in
  match candidates with
  | [] => Some (s, Msg_BotStuck)
  | _ =>
      match js_index candidates (bot_index r (length candidates)) with
      | None => None
      | Some botWord =>
          Some (mkState (used s ++ [botWord]) (Some (slice_last botWord)),
                Msg_BotPlayed botWord)
      end
  end.

(** Runs of the game from [init], each accepted word recorded with the
    required letter in force when it was played. *)
Inductive reach : state -> list (option string * string) -> Prop :=
| reach_init : reach init []
| reach_play_ok s h v s' w :
    reach s h -> playWord s v = (s', Msg_YouPlayed w) ->
    reach s' (h ++ [(lastLetter s, w)])
| reach_play_rej s h v s' m :
    reach s h -> playWord s v = (s', m) -> (forall w, m <> Msg_YouPlayed w) ->
    reach s' h
| reach_bot_ok s h r s' w :
    reach s h -> botMove s r = Some (s', Msg_BotPlayed w) ->
    reach s' (h ++ [(lastLetter s, w)])
| reach_bot_stuck s h r s' :
    reach s h -> botMove s r = Some (s', Msg_BotStuck) -> reach s' h.

Definition reachable (s : state) : Prop := exists h, reach s h.

End Engine.

(** The required letter a played sequence determines: the last character
    of its last word, [None] before any word. *)
Definition last_letter (xs : list string) : option string :=
  match rev xs with
  | [] => None
  | w :: _ => Some (slice_last w)
  end.

(** The invariant of reachable states: [hist] records each accepted word
    with the required letter in force when it was played. *)
Definition match_inv (wordlist : list string) (s : state)
    (hist : list (option string * string)) : Prop :=
  map snd hist = used s /\
  NoDup (used s) /\
  Forall (fun w => In w wordlist) (used s) /\
  Forall (fun w => w <> EmptyString) (used s) /\
  lastLetter s = last_letter (used s) /\
  (forall i l w, nth_error hist i = Some (l, w) ->
     (i = 0%nat -> l = None) /\
     (i <> 0%nat -> exists c rest, w = String c rest /\ l = Some (String c EmptyString))).

(** Every code unit of [w] is one of [a]..[z]. *)
Definition all_az (w : string) : bool := forallb is_az (list_ascii_of_string w).

(** The phases of the spec's match state machine, assigned along runs of
    the code: an accepted player word leads to [AwaitingBotMove], a bot
    word to [AwaitingPlayerMove], a stuck bot to [PlayerWon], and rejected
    inputs keep the phase.  The code itself keeps no phase. *)
Inductive spec_phase :=
| AwaitingFirstMove
| AwaitingPlayerMove
| AwaitingBotMove
| PlayerWon.

Inductive spec_run (wordlist : list string) : state -> spec_phase -> Prop :=
| run_init : spec_run wordlist init AwaitingFirstMove
| run_play_ok s p v s' w :
    spec_run wordlist s p -> playWord wordlist s v = (s', Msg_YouPlayed w) ->
    spec_run wordlist s' AwaitingBotMove
| run_play_rej s p v s' m :
    spec_run wordlist s p -> playWord wordlist s v = (s', m) ->
    (forall w, m <> Msg_YouPlayed w) -> spec_run wordlist s' p
| run_bot_ok s p r s' w :
    spec_run wordlist s p -> botMove wordlist s r = Some (s', Msg_BotPlayed w) ->
    spec_run wordlist s' AwaitingPlayerMove
| run_bot_stuck s p r s' :
    spec_run wordlist s p -> botMove wordlist s r = Some (s', Msg_BotStuck) ->
    spec_run wordlist s' PlayerWon.

(** ** Loading the word list *)

(** An element of [wordlist.json]: [{pretty, norm}]. *)
Record item := mkItem {
  pretty : string;
  norm : string
}.

(** [prettyMap], a JavaScript object used as a map, as an association list
    with the newest binding first.  The properties an object inherits from
    [Object.prototype] ([toString], [valueOf], [hasOwnProperty],
    [constructor], [__proto__], ...) are not modelled: [pm_get] answers
    [None] on them while JavaScript reads the inherited value, and
    assigning [__proto__] changes the prototype instead of adding a key.
    The statements below therefore exclude a loaded [__proto__] key and
    speak only of loaded keys or of keys made of [a]..[z] other than
    [constructor] (the one such inherited name). *)
Definition prettymap := list (string * string).

(** [prettyMap[k]]: [None] is [undefined]. *)
Fixpoint pm_get (pm : prettymap) (k : string) : option string :=
  match pm with
  | [] => None
  | (k', v) :: pm' => if String.eqb k k' then Some v else pm_get pm' k
  end.

(** [prettyMap[k] = v] *)
Definition pm_set (pm : prettymap) (k v : string) : prettymap := (k, v) :: pm.

(** The [fetch] callback
    [data.forEach(item => { wordlist.push(item.norm);
                            prettyMap[item.norm] = item.pretty; })],
    run on the current [wordlist] and [prettyMap]. *)
Definition load (data : list item) (wl : list string) (pm : prettymap)
    : list string * prettymap :=
  fold_left (fun acc it =>
               let '(wl, pm) := acc in
               (app wl [norm it], pm_set pm (norm it) (pretty it)))
            data (wl, pm).

(** [let wordlist = []; let prettyMap = {};] then the callback. *)
Definition loaded (data : list item) : list string * prettymap := load data [] [].

(** ** The page: [updateUI] and [setResult] *)

(** The content of the [result] element, as the message it was set from. *)
Inductive result_msg :=
| NoResult
| PlayResult (m : play_msg)
| BotResult (m : bot_msg).

(** The match state with the DOM elements the script writes or reads:
    [lastLetter], [usedWords], [userWord] and [result]. *)
Record page := mkPage {
  pg_state : state;
  lastLetterText : string;
  usedWordsText : string;
  userWordValue : string;
  resultText : result_msg
}.

(** [lastLetter || "-"] *)
Definition lastLetter_text (l : option string) : string :=
  match l with
  | Some l' => if String.eqb l' "" then "-" else l'
  | None => "-"
  end.

(** [used.map(w => prettyMap[w]).join(", ") || "None"]; [join] writes
    [undefined] as the empty string. *)
Definition usedWords_text (pm : prettymap) (u : list string) : string :=
  let t := String.concat ", "
             (map (fun w => match pm_get pm w with Some p => p | None => "" end) u) in
  if String.eqb t "" then "None" else t.

(** [updateUI] *)
Definition updateUI (pm : prettymap) (p : page) : page :=
  mkPage (pg_state p) (lastLetter_text (lastLetter (pg_state p)))
         (usedWords_text pm (used (pg_state p))) "" (resultText p).

(** [setResult] *)
Definition setResult (m : result_msg) (p : page) : page :=
  mkPage (pg_state p) (lastLetterText p) (usedWordsText p) (userWordValue p) m.

(** [playWord] on the page: it reads the [userWord] field; on acceptance it
    updates the state, calls [updateUI] and then [setResult]; on rejection
    it only calls [setResult]. *)
Definition playWord_page (wordlist : list string) (pm : prettymap) (p : page) : page :=
  let '(s', m) := playWord wordlist (pg_state p) (userWordValue p) in
  match m with
  | Msg_YouPlayed _ =>
      setResult (PlayResult m)
        (updateUI pm (mkPage s' (lastLetterText p) (usedWordsText p)
                             (userWordValue p) (resultText p)))
  | _ => setResult (PlayResult m) p
  end.

(** [botMove] on the page ([None]: the [TypeError] of [botMove]). *)
Definition botMove_page (wordlist : list string) (pm : prettymap) (r : double) (p : page)
    : option page :=
  match botMove wordlist (pg_state p) r with
  | None => None
  | Some (s', Msg_BotStuck) => Some (setResult (BotResult Msg_BotStuck) p)
  | Some (s', m) =>
      Some (setResult (BotResult m)
              (updateUI pm (mkPage s' (lastLetterText p) (usedWordsText p)
                                   (userWordValue p) (resultText p))))
  end.

Definition vocab : list string := ["india"; "afghanistan"; "nepal"; "laos"].

(** A word list whose [norm] fields are not all normalized. *)
Definition vocab_raw : list string := ["india"; "aB"].

Example loaded_demo :
  loaded [mkItem "India" "india"; mkItem "Afghanistan" "afghanistan"] =
  (["india"; "afghanistan"], [("afghanistan", "Afghanistan"); ("india", "India")]).
Proof. reflexivity. Qed.

Example norm_India : normalizeInput (trim "  India ") = "india".
Proof. reflexivity. Qed.

Example play_India : playWord vocab init "India" =
  (mkState ["india"] (Some "a"), Msg_YouPlayed "india").
Proof. reflexivity. Qed.

Example bot_after_India :
  botMove vocab (mkState ["india"] (Some "a")) (mkDouble 1 (-1)) =
  Some (mkState ["india"; "afghanistan"] (Some "n"), Msg_BotPlayed "afghanistan").
Proof. reflexivity. Qed.

(** The double nearest to 0.7 times 10 rounds to exactly 7. *)
Example bot_index_0_7 :
  is_random_double (mkDouble 6305039478318694 (-53)) = true /\
  bot_index (mkDouble 6305039478318694 (-53)) 10 = 7%Z.
Proof. split; reflexivity. Qed.

(** The largest value of [Math.random()] times 3 rounds to 3 - 2^-51. *)
Example bot_index_max_3 :
  round53 (9007199254740991 * 3) (-53) = (6755399441055743%Z, (-51)%Z) /\
  bot_index (mkDouble 9007199254740991 (-53)) 3 = 2%Z.
Proof. split; reflexivity. Qed.

(** ** Step lemmas *)

Section Proofs.

Variable wordlist : list string.

Lemma includes_In xs w : includes xs w = true <-> In w xs.
Proof.
  unfold includes. rewrite existsb_exists. split.
  - intros (x & Hx & He). apply String.eqb_eq in He. now subst.
  - intros H. exists w. split; [assumption | apply String.eqb_refl].
Qed.

Lemma includes_false xs w : includes xs w = false <-> ~ In w xs.
Proof.
  rewrite <- includes_In. destruct (includes xs w); split; congruence.
Qed.

Lemma first_is_Some w l :
  first_is w l = true -> exists c rest l', w = String c rest /\ l = Some l' /\
                                           l' = String c EmptyString.
Proof.
  unfold first_is. destruct w as [|c rest]; cbn [first_char]; [discriminate|].
  destruct l as [l'|]; [|discriminate].
  intros H. apply String.eqb_eq in H. exists c, rest, l'. auto.
Qed.

Lemma slice_last_char w : w <> EmptyString -> exists c, slice_last w = String c EmptyString.
Proof.
  induction w as [|c w IH]; intros H; [congruence|].
  destruct w as [|c' w']; simpl; eauto.
  apply IH. discriminate.
Qed.

Ltac split_ifs H :=
  repeat match type of H with
  | context [if ?b then _ else _] => let E := fresh "E" in destruct b eqn:E
  | context [match ?o with Some _ => _ | None => _ end] =>
      let E := fresh "E" in destruct o eqn:E
  end.

Lemma playWord_rej s v s' m :
  playWord wordlist s v = (s', m) -> (forall w, m <> Msg_YouPlayed w) -> s' = s.
Proof.
  unfold playWord. intros H Hm. split_ifs H; inversion H; subst; try reflexivity;
    exfalso; eapply Hm; reflexivity.
Qed.

Lemma playWord_ok s v s' w :
  playWord wordlist s v = (s', Msg_YouPlayed w) ->
  w = normalizeInput (trim v) /\ w <> EmptyString /\ In w wordlist /\
  ~ In w (used s) /\
  (forall l, lastLetter s = Some l -> l <> EmptyString -> first_is w (Some l) = true) /\
  s' = mkState (used s ++ [w]) (Some (slice_last w)).
Proof.
  unfold playWord. intros H.
  destruct (String.eqb (normalizeInput (trim v)) "") eqn:E1; [discriminate|].
  destruct (includes wordlist (normalizeInput (trim v))) eqn:E2; [|discriminate].
  destruct (includes (used s) (normalizeInput (trim v))) eqn:E3; [discriminate|].
  apply String.eqb_neq in E1. apply includes_In in E2. apply includes_false in E3.
  destruct (lastLetter s) as [l|] eqn:E4.
  - destruct (negb (String.eqb l "") && negb (first_is (normalizeInput (trim v)) (Some l)))
      eqn:E5; [discriminate|].
    inversion H; subst. repeat split; try assumption.
    intros l' Hl' Hne. inversion Hl'; subst.
    apply andb_false_iff in E5. destruct E5 as [E5|E5].
    + apply negb_false_iff, String.eqb_eq in E5. congruence.
    + now apply negb_false_iff in E5.
  - inversion H; subst. repeat split; try assumption. discriminate.
Qed.

Lemma bot_candidates_In s w :
  In w (bot_candidates wordlist s) <->
  In w wordlist /\ first_is w (lastLetter s) = true /\ ~ In w (used s).
Proof.
  unfold bot_candidates. rewrite filter_In, andb_true_iff, negb_true_iff, includes_false.
  tauto.
Qed.

Lemma js_index_In {A} (xs : list A) i x : js_index xs i = Some x -> In x xs.
Proof.
  unfold js_index. destruct (i <? 0)%Z; [discriminate|].
  apply nth_error_In.
Qed.

Lemma botMove_ok s r s' w :
  botMove wordlist s r = Some (s', Msg_BotPlayed w) ->
  In w (bot_candidates wordlist s) /\
  s' = mkState (used s ++ [w]) (Some (slice_last w)).
Proof.
  unfold botMove. destruct (bot_candidates wordlist s) as [|c cs] eqn:Ec;
    [discriminate|].
  destruct (js_index (c :: cs) _) as [b|] eqn:Ei; [|discriminate].
  intros H; inversion H; subst. split; [|reflexivity].
  eapply js_index_In; eassumption.
Qed.

Lemma botMove_stuck s r s' :
  botMove wordlist s r = Some (s', Msg_BotStuck) ->
  s' = s /\ bot_candidates wordlist s = [].
Proof.
  unfold botMove. destruct (bot_candidates wordlist s) as [|c cs] eqn:Ec.
  - intros H; inversion H; auto.
  - destruct (js_index (c :: cs) _); discriminate.
Qed.

End Proofs.

(** ** The invariant of reachable states *)

Lemma NoDup_snoc {A} (xs : list A) x : NoDup xs -> ~ In x xs -> NoDup (xs ++ [x]).
Proof.
  induction xs as [|y xs IH]; simpl; intros Hd Hx.
  - constructor; [intros []|constructor].
  - inversion Hd; subst. constructor.
    + rewrite in_app_iff. simpl. intuition.
    + apply IH; intuition.
Qed.

Lemma nth_error_snoc {A} (h : list A) x i :
  nth_error (h ++ [x]) i =
  if (i <? length h)%nat then nth_error h i
  else if (i =? length h)%nat then Some x else None.
Proof.
  destruct (Nat.ltb_spec i (length h)).
  - apply nth_error_app1; assumption.
  - rewrite nth_error_app2 by assumption.
    destruct (Nat.eqb_spec i (length h)).
    + subst. rewrite Nat.sub_diag. reflexivity.
    + destruct (i - length h)%nat as [|k] eqn:E; [lia|]. destruct k; reflexivity.
Qed.

Lemma last_letter_snoc xs w : last_letter (xs ++ [w]) = Some (slice_last w).
Proof. unfold last_letter. rewrite rev_app_distr. reflexivity. Qed.

Lemma last_letter_nonempty xs :
  xs <> [] -> Forall (fun w => w <> EmptyString) xs ->
  exists c, last_letter xs = Some (String c EmptyString).
Proof.
  intros Hne Hall. unfold last_letter.
  destruct (rev xs) as [|w ws] eqn:E.
  - exfalso. apply Hne. rewrite <- (rev_involutive xs), E. reflexivity.
  - assert (Hw : In w xs) by (apply in_rev; rewrite E; left; reflexivity).
    rewrite Forall_forall in Hall.
    destruct (slice_last_char w (Hall w Hw)) as [c Hc]. exists c. now rewrite Hc.
Qed.

Section Invariant.

Variable wordlist : list string.

Lemma match_inv_init : match_inv wordlist init [].
Proof.
  unfold match_inv. split; [reflexivity|]. split; [constructor|].
  split; [constructor|]. split; [constructor|]. split; [reflexivity|].
  intros i l w H. destruct i; discriminate.
Qed.

(** Appending an admissible word preserves the invariant. *)
Lemma match_inv_snoc s h w :
  match_inv wordlist s h ->
  w <> EmptyString -> In w wordlist -> ~ In w (used s) ->
  (lastLetter s = None \/
   exists c rest, w = String c rest /\ lastLetter s = Some (String c EmptyString)) ->
  match_inv wordlist (mkState (used s ++ [w]) (Some (slice_last w)))
    (h ++ [(lastLetter s, w)]).
Proof.
  intros (Hmap & Hnd & Hin & Hne & Hll & Hh) Hw Hwl Hu Hl.
  unfold match_inv; simpl.
  split; [rewrite map_app, Hmap; reflexivity|].
  split; [apply NoDup_snoc; assumption|].
  split; [apply Forall_app; split; [assumption|constructor; [assumption|constructor]]|].
  split; [apply Forall_app; split; [assumption|constructor; [assumption|constructor]]|].
  split; [rewrite last_letter_snoc; reflexivity|].
  intros i l w' Hi. rewrite nth_error_snoc in Hi.
  destruct (Nat.ltb_spec i (length h)); [exact (Hh i l w' Hi)|].
  destruct (Nat.eqb_spec i (length h)); [|discriminate].
  inversion Hi; subst l w'. split; intros Hi0.
  - assert (h = []) by (destruct h; [reflexivity|simpl in *; lia]). subst h.
    simpl in Hmap. rewrite <- Hmap in Hll. destruct Hl as [Hl|(c & rest & _ & Hl)];
      [exact Hl|]. rewrite Hll in Hl. discriminate.
  - destruct Hl as [Hl|Hl]; [|exact Hl]. exfalso.
    assert (Hu0 : used s <> []).
    { rewrite <- Hmap. destruct h; [simpl in *; lia|discriminate]. }
    destruct (last_letter_nonempty (used s) Hu0 Hne) as [c Hc].
    congruence.
Qed.

Lemma reach_match_inv s h : reach wordlist s h -> match_inv wordlist s h.
Proof.
  induction 1 as [|s h v s' w Hr IH Hp|s h v s' m Hr IH Hp Hm|s h r s' w Hr IH Hb
                  |s h r s' Hr IH Hb].
  - apply match_inv_init.
  - destruct (playWord_ok wordlist s v s' w Hp) as (_ & Hw & Hwl & Hu & Hl & ->).
    apply match_inv_snoc; try assumption.
    destruct (lastLetter s) as [l|] eqn:El; [right|left; reflexivity].
    destruct IH as (Hmap & _ & _ & Hne & Hll & _).
    assert (Hl0 : l <> EmptyString).
    { destruct (used s) as [|u us] eqn:Eu.
      - rewrite Hll in El. discriminate.
      - assert (Hus : u :: us <> []) by discriminate.
        destruct (last_letter_nonempty _ Hus Hne) as [c Hc]. congruence. }
    destruct (first_is_Some w (Some l) (Hl l eq_refl Hl0))
      as (c & rest & l' & -> & Hl' & ->).
    inversion Hl'; subst. exists c, rest. split; reflexivity.
  - rewrite (playWord_rej wordlist s v s' m Hp Hm). assumption.
  - destruct (botMove_ok wordlist s r s' w Hb) as [Hc ->].
    apply bot_candidates_In in Hc. destruct Hc as (Hwl & Hf & Hu).
    destruct (first_is_Some w (lastLetter s) Hf) as (c & rest & l' & -> & Hl & ->).
    apply match_inv_snoc; try assumption; [discriminate|].
    right. exists c, rest. split; [reflexivity|assumption].
  - destruct (botMove_stuck wordlist s r s' Hb) as [-> _]. assumption.
Qed.

End Invariant.

(** ** Classification of [playWord] by the check that decides it *)

Section Classify.

Variable wordlist : list string.

Lemma playWord_cases s v :
  let w := normalizeInput (trim v) in
  (w = EmptyString /\ playWord wordlist s v = (s, Msg_PleaseEnter)) \/
  (w <> EmptyString /\ ~ In w wordlist /\
   playWord wordlist s v = (s, Msg_InvalidCountry)) \/
  (w <> EmptyString /\ In w wordlist /\ In w (used s) /\
   playWord wordlist s v = (s, Msg_AlreadyUsed)) \/
  (w <> EmptyString /\ In w wordlist /\ ~ In w (used s) /\
   exists l, lastLetter s = Some l /\ l <> EmptyString /\ first_is w (Some l) = false /\
             playWord wordlist s v = (s, Msg_MustStart l)) \/
  (w <> EmptyString /\ In w wordlist /\ ~ In w (used s) /\
   (forall l, lastLetter s = Some l -> l <> EmptyString -> first_is w (Some l) = true) /\
   playWord wordlist s v = (mkState (used s ++ [w]) (Some (slice_last w)), Msg_YouPlayed w)).
Proof.
  cbv zeta. unfold playWord. cbv zeta.
  set (w := normalizeInput (trim v)).
  destruct (String.eqb_spec w "") as [E1|E1]; [left; split; [exact E1|reflexivity]|].
  right. destruct (includes wordlist w) eqn:E2; simpl negb; cbv iota.
  2:{ left. apply includes_false in E2. auto. }
  apply includes_In in E2. right.
  destruct (includes (used s) w) eqn:E3.
  { left. apply includes_In in E3. auto. }
  apply includes_false in E3. right.
  destruct (lastLetter s) as [l|] eqn:E4.
  - destruct (String.eqb_spec l "") as [E5|E5]; simpl negb; cbv iota.
    + right. repeat split; try assumption.
      intros l' Hl' Hne. inversion Hl'; subst. congruence.
    + destruct (first_is w (Some l)) eqn:E6; simpl negb; cbv iota.
      * right. repeat split; try assumption.
        intros l' Hl' _. inversion Hl'; subst. assumption.
      * left. repeat split; try assumption. exists l. auto.
  - right. repeat split; try assumption. intros l' Hl'. discriminate.
Qed.

End Classify.

(** ** Index selection of the random bot *)

Lemma round_step_bound M P H N K q' :
  P = (2 * H)%Z -> (0 < H)%Z -> (0 <= M)%Z -> (H < N)%Z -> (M + N <= N * K)%Z ->
  (q' = M / P \/ (q' = M / P + 1 /\ H <= M mod P))%Z ->
  (0 <= q' /\ q' * P < N * K)%Z.
Proof.
  intros HP HH HM HN HK Hq.
  assert (HP0 : (0 < P)%Z) by lia.
  pose proof (Z.div_mod M P ltac:(lia)) as Hd.
  pose proof (Z.mod_pos_bound M P HP0) as Hr.
  pose proof (Z.div_pos M P HM HP0) as Hq0.
  set (q := (M / P)%Z) in *. set (rem := (M mod P)%Z) in *.
  destruct Hq as [->|[-> Hh]]; split; nia.
Qed.

Lemma round53_big M e :
  (2^53 <= M)%Z ->
  exists q', round53 M e = (q', (e + (Z.log2 M - 52))%Z) /\
    (q' = M / 2^(Z.log2 M - 52) \/
     (q' = M / 2^(Z.log2 M - 52) + 1 /\ 2^(Z.log2 M - 52 - 1) <= M mod 2^(Z.log2 M - 52)))%Z.
Proof.
  intros HM. unfold round53.
  destruct (Z.ltb_spec M (2^53)) as [Hlt|_]; [lia|]. cbv zeta.
  set (s := (Z.log2 M - 52)%Z).
  destruct (Z.ltb_spec (2^(s-1)) (M mod 2^s)).
  - eexists. split; [reflexivity|]. right. split; [reflexivity|lia].
  - destruct (Z.eqb_spec (M mod 2^s) (2^(s-1))).
    + destruct (Z.odd (M / 2^s)).
      * eexists. split; [reflexivity|]. right. split; [reflexivity|lia].
      * eexists. split; [reflexivity|]. left. reflexivity.
    + eexists. split; [reflexivity|]. left. reflexivity.
Qed.

(** For every value [Math.random()] can return, the rounded product with
    a positive length [n] floors to an index in [[0, n)]. *)
Lemma bot_index_bound r n :
  is_random_double r = true -> (0 < n)%nat -> (0 <= bot_index r n < Z.of_nat n)%Z.
Proof.
  unfold is_random_double. destruct r as [m e]. simpl. intros Hr Hn.
  apply andb_true_iff in Hr. destruct Hr as [Hr Hc].
  apply andb_true_iff in Hr. destruct Hr as [Hr He].
  apply andb_true_iff in Hr. destruct Hr as [Hm0 Hm53].
  apply Z.leb_le in Hm0. apply Z.ltb_lt in Hm53. apply Z.leb_le in He.
  set (N := Z.of_nat n). assert (HN : (1 <= N)%Z) by (unfold N; lia).
  unfold bot_index. simpl dmant; simpl dexp. fold N.
  revert Hc. destruct (Z.leb_spec 0 e) as [He0|He0]; intros Hc.
  - apply Z.ltb_lt in Hc.
    assert (Hp : (1 <= 2^e)%Z) by (apply (Z.pow_le_mono_r 2 0 e); lia).
    assert (Hmp : (m * 1 <= m * 2^e)%Z) by (apply Z.mul_le_mono_nonneg_l; lia).
    assert (m = 0%Z) by lia. subst m.
    unfold round53, js_floor. simpl. rewrite (proj2 (Z.leb_le _ _) He0). lia.
  - apply Z.ltb_lt in Hc. set (k := (- e)%Z) in *.
    assert (Hk : (0 < 2^k)%Z) by (apply Z.pow_pos_nonneg; lia).
    assert (HMK : (m * N + N <= N * 2^k)%Z) by nia.
    destruct (Z.ltb_spec (m * N) (2^53)) as [Hs|Hs].
    + unfold round53. rewrite (proj2 (Z.ltb_lt _ _) Hs). unfold js_floor.
      destruct (Z.leb_spec 0 e) as [He1|_]; [lia|]. fold k. split.
      * apply Z.div_pos; lia.
      * apply Z.div_lt_upper_bound; [exact Hk|nia].
    + destruct (round53_big (m * N) e Hs) as (q' & Hround & Hq). rewrite Hround.
      set (L := Z.log2 (m * N)) in *.
      assert (HL : (53 <= L)%Z).
      { unfold L. rewrite <- (Z.log2_pow2 53) by lia. apply Z.log2_le_mono. exact Hs. }
      assert (HLs : (2^L <= m * N)%Z) by (apply Z.log2_spec; lia).
      assert (HP : (2^(L - 52) = 2 * 2^(L - 52 - 1))%Z).
      { replace (L - 52)%Z with (Z.succ (L - 52 - 1)) at 1 by lia.
        rewrite Z.pow_succ_r by lia. reflexivity. }
      assert (HH0 : (0 < 2^(L - 52 - 1))%Z) by (apply Z.pow_pos_nonneg; lia).
      assert (HHN : (2^(L - 52 - 1) < N)%Z).
      { assert (H2L : (2^L = 2^(L - 52 - 1) * 2^53)%Z).
        { rewrite <- Z.pow_add_r by lia. f_equal. lia. }
        nia. }
      destruct (round_step_bound (m * N) (2^(L - 52)) (2^(L - 52 - 1)) N (2^k) q'
                  HP HH0 ltac:(nia) HHN HMK Hq) as [Hq0 Hlt].
      unfold js_floor. destruct (Z.leb_spec 0 (e + (L - 52))) as [HE|HE].
      * assert (Hsplit : (2^(L - 52) = 2^(e + (L - 52)) * 2^k)%Z).
        { rewrite <- Z.pow_add_r by lia. f_equal. unfold k. lia. }
        assert (HE0 : (0 < 2^(e + (L - 52)))%Z) by (apply Z.pow_pos_nonneg; lia).
        split; [nia|]. nia.
      * assert (Hsplit : (2^k = 2^(- (e + (L - 52))) * 2^(L - 52))%Z).
        { rewrite <- Z.pow_add_r by lia. f_equal. unfold k. lia. }
        assert (HE0 : (0 < 2^(- (e + (L - 52))))%Z) by (apply Z.pow_pos_nonneg; lia).
        split; [apply Z.div_pos; lia|].
        apply Z.div_lt_upper_bound; [exact HE0|]. nia.
Qed.

Lemma js_index_in_range {A} (xs : list A) i :
  (0 <= i < Z.of_nat (length xs))%Z -> exists x, js_index xs i = Some x /\ In x xs.
Proof.
  intros Hi. unfold js_index.
  destruct (Z.ltb_spec i 0) as [Hlt|_]; [lia|].
  destruct (nth_error xs (Z.to_nat i)) as [x|] eqn:E.
  - exists x. split; [reflexivity|]. eapply nth_error_In; eassumption.
  - apply nth_error_None in E. lia.
Qed.

Section BotPick.

Variable wordlist : list string.

Lemma botMove_pick s r :
  is_random_double r = true -> bot_candidates wordlist s <> [] ->
  exists w, botMove wordlist s r =
            Some (mkState (used s ++ [w]) (Some (slice_last w)), Msg_BotPlayed w) /\
            In w (bot_candidates wordlist s).
Proof.
  intros Hr Hne. unfold botMove.
  destruct (bot_candidates wordlist s) as [|c cs] eqn:Ec; [congruence|].
  destruct (js_index_in_range (c :: cs) (bot_index r (length (c :: cs))))
    as (w & Hw & Hin).
  { apply bot_index_bound; [assumption|simpl; lia]. }
  rewrite Hw. exists w. split; [reflexivity|assumption].
Qed.

Lemma botMove_empty s r :
  bot_candidates wordlist s = [] -> botMove wordlist s r = Some (s, Msg_BotStuck).
Proof. intros H. unfold botMove. rewrite H. reflexivity. Qed.

End BotPick.

(** ** Normalization *)

Lemma ascii_lower_az c : is_az c = true -> ascii_lower c = c.
Proof.
  unfold is_az, ascii_lower. intros H.
  apply andb_true_iff in H. destruct H as [H1 H2].
  apply Nat.leb_le in H1. apply Nat.leb_le in H2.
  destruct (Nat.leb_spec 65 (nat_of_ascii c)); simpl; [|reflexivity].
  destruct (Nat.leb_spec (nat_of_ascii c) 90); simpl; [lia|reflexivity].
Qed.

Lemma toLowerCase_all_az s : all_az s = true -> toLowerCase s = s.
Proof.
  induction s as [|c s IH]; simpl; [reflexivity|].
  unfold all_az; simpl. intros H. apply andb_true_iff in H. destruct H as [Hc Hs].
  rewrite ascii_lower_az by assumption. rewrite IH by assumption. reflexivity.
Qed.

Lemma remove_non_az_all_az s : all_az s = true -> remove_non_az s = s.
Proof.
  induction s as [|c s IH]; simpl; [reflexivity|].
  unfold all_az; simpl. intros H. apply andb_true_iff in H. destruct H as [Hc Hs].
  rewrite Hc. rewrite IH by assumption. reflexivity.
Qed.

Lemma all_az_remove_non_az s : all_az (remove_non_az s) = true.
Proof.
  induction s as [|c s IH]; simpl; [reflexivity|].
  destruct (is_az c) eqn:Hc; [|exact IH].
  unfold all_az in *; simpl. rewrite Hc. exact IH.
Qed.

Lemma all_az_normalizeInput x : all_az (normalizeInput x) = true.
Proof. apply all_az_remove_non_az. Qed.

Lemma list_ascii_remove_non_az s :
  list_ascii_of_string (remove_non_az s) = filter is_az (list_ascii_of_string s).
Proof.
  induction s as [|c s IH]; simpl; [reflexivity|].
  destruct (is_az c); simpl; rewrite IH; reflexivity.
Qed.

Lemma list_ascii_toLowerCase s :
  list_ascii_of_string (toLowerCase s) = map ascii_lower (list_ascii_of_string s).
Proof.
  induction s as [|c s IH]; simpl; [reflexivity|]. rewrite IH. reflexivity.
Qed.

Lemma slice_last_split w :
  w <> EmptyString ->
  exists pre c, w = (pre ++ String c EmptyString)%string /\
                slice_last w = String c EmptyString.
Proof.
  induction w as [|c w IH]; intros H; [congruence|].
  destruct w as [|c' w'].
  - exists EmptyString, c. split; reflexivity.
  - destruct IH as (pre & d & Hw & Hs); [discriminate|].
    exists (String c pre), d. split.
    + rewrite Hw. reflexivity.
    + change (slice_last (String c (String c' w'))) with (slice_last (String c' w')).
      exact Hs.
Qed.

Lemma slice_last_all_az w :
  all_az w = true -> w <> EmptyString ->
  exists c, slice_last w = String c EmptyString /\ is_az c = true.
Proof.
  induction w as [|c w IH]; intros H Hne; [congruence|].
  unfold all_az in H; simpl in H. apply andb_true_iff in H. destruct H as [Hc Hw].
  destruct w as [|c' w'].
  - exists c. split; [reflexivity|assumption].
  - change (slice_last (String c (String c' w'))) with (slice_last (String c' w')).
    apply IH; [exact Hw|discriminate].
Qed.

Lemma last_letter_In xs l : last_letter xs = Some l -> exists w, In w xs /\ l = slice_last w.
Proof.
  unfold last_letter. destruct (rev xs) as [|w ws] eqn:E; [discriminate|].
  intros H. inversion H; subst. exists w. split; [|reflexivity].
  apply in_rev. rewrite E. left. reflexivity.
Qed.

(** ** Claims *)

(** C1: along every run of the game from the initial state (accepted and
    rejected player inputs, bot moves), the played sequence [used] has no
    duplicates, every word in it belongs to the vocabulary, and every word
    after the first begins with the required letter that was in force when
    it was played. *)
Theorem played_sequence_invariant (wordlist : list string) s h :
  reach wordlist s h ->
  map snd h = used s /\
  NoDup (used s) /\
  Forall (fun w => In w wordlist) (used s) /\
  (forall i l w, (0 < i)%nat -> nth_error h i = Some (l, w) ->
     exists c rest, w = String c rest /\ l = Some (String c EmptyString)).
Proof.
  intros Hr. destruct (reach_match_inv wordlist s h Hr)
    as (Hmap & Hnd & Hin & _ & _ & Hh).
  split; [exact Hmap|]. split; [exact Hnd|]. split; [exact Hin|].
  intros i l w Hi Hn. apply (proj2 (Hh i l w Hn)). lia.
Qed.

Lemma played_sequence_invariant_witness :
  reach vocab (mkState ["india"; "afghanistan"] (Some "n"))
    [(None, "india"); (Some "a", "afghanistan")] /\
  NoDup ["india"; "afghanistan"].
Proof.
  assert (Hr : reach vocab (mkState ["india"; "afghanistan"] (Some "n"))
                 [(None, "india"); (Some "a", "afghanistan")]).
  { change [(None, "india"); (Some "a", "afghanistan")] with
      (app (app [] [(lastLetter init, "india")])
         [(lastLetter (mkState ["india"] (Some "a")), "afghanistan")]).
    eapply reach_bot_ok with (r := mkDouble 0 0).
    - eapply reach_play_ok with (v := "India"); [apply reach_init|reflexivity].
    - reflexivity. }
  split; [exact Hr|].
  exact (proj1 (proj2 (played_sequence_invariant vocab _ _ Hr))).
Defined.

(** C2: when [playWord] rejects its input it leaves the match state
    ([used] and [lastLetter]) unchanged, and the message tells which check
    failed: empty after normalization, unknown word, already used, or
    letter mismatch. *)
Theorem playWord_reject_unchanged (wordlist : list string) s v s' m :
  playWord wordlist s v = (s', m) -> (forall w, m <> Msg_YouPlayed w) ->
  s' = s /\
  (let w := normalizeInput (trim v) in
   (m = Msg_PleaseEnter /\ w = EmptyString) \/
   (m = Msg_InvalidCountry /\ w <> EmptyString /\ ~ In w wordlist) \/
   (m = Msg_AlreadyUsed /\ w <> EmptyString /\ In w wordlist /\ In w (used s)) \/
   (exists l, m = Msg_MustStart l /\ w <> EmptyString /\ In w wordlist /\
              ~ In w (used s) /\ lastLetter s = Some l /\ l <> EmptyString /\
              first_is w (Some l) = false)).
Proof.
  intros Hp Hm.
  destruct (playWord_cases wordlist s v)
    as [(Hw & Hq)|[(Hw & Hn & Hq)|[(Hw & Hn & Hu & Hq)|[(Hw & Hn & Hu & l & Hl & Hl0 & Hf & Hq)
       |(Hw & Hn & Hu & _ & Hq)]]]];
    rewrite Hq in Hp; inversion Hp; subst s' m.
  - split; [reflexivity|]. left. auto.
  - split; [reflexivity|]. right; left. auto.
  - split; [reflexivity|]. right; right; left. auto.
  - split; [reflexivity|]. right; right; right. exists l. auto 7.
  - exfalso. eapply Hm. reflexivity.
Qed.

Lemma playWord_reject_unchanged_witness :
  playWord vocab (mkState ["india"] (Some "a")) "India" =
    (mkState ["india"] (Some "a"), Msg_AlreadyUsed) /\
  mkState ["india"] (Some "a") = mkState ["india"] (Some "a").
Proof.
  split; [reflexivity|].
  refine (proj1 (playWord_reject_unchanged vocab (mkState ["india"] (Some "a")) "India"
                   (mkState ["india"] (Some "a")) Msg_AlreadyUsed eq_refl _)).
  intros w H. discriminate.
Defined.

(** C3: when a required letter is set, the bot's candidates are the
    vocabulary entries whose first character is that letter minus the
    played words; with no candidate [botMove] reports the bot stuck (the
    player wins) and leaves the state unchanged; otherwise it plays a
    candidate. *)
Theorem bot_candidate_set (wordlist : list string) s l r :
  lastLetter s = Some l ->
  (forall w, In w (bot_candidates wordlist s) <->
             In w wordlist /\
             (exists c rest, w = String c rest /\ String c EmptyString = l) /\
             ~ In w (used s)) /\
  (bot_candidates wordlist s = [] -> botMove wordlist s r = Some (s, Msg_BotStuck)) /\
  (bot_candidates wordlist s <> [] -> is_random_double r = true ->
   exists s' w, botMove wordlist s r = Some (s', Msg_BotPlayed w) /\
                In w (bot_candidates wordlist s)).
Proof.
  intros Hl. split; [|split].
  - intros w. rewrite bot_candidates_In, Hl. split.
    + intros (Hw & Hf & Hu). split; [exact Hw|]. split; [|exact Hu].
      destruct (first_is_Some w (Some l) Hf) as (c & rest & l' & Hw' & Hl' & He).
      inversion Hl'; subst. exists c, rest. auto.
    + intros (Hw & (c & rest & -> & <-) & Hu). split; [exact Hw|]. split; [|exact Hu].
      apply String.eqb_refl.
  - apply botMove_empty.
  - intros Hne Hr. destruct (botMove_pick wordlist s r Hr Hne) as (w & Hb & Hin).
    eexists; exists w. split; [exact Hb|exact Hin].
Qed.

Lemma bot_candidate_set_witness :
  lastLetter (mkState ["india"; "afghanistan"; "nepal"; "laos"] (Some "s")) = Some "s" /\
  botMove vocab (mkState ["india"; "afghanistan"; "nepal"; "laos"] (Some "s")) (mkDouble 0 0) =
    Some (mkState ["india"; "afghanistan"; "nepal"; "laos"] (Some "s"), Msg_BotStuck).
Proof.
  split; [reflexivity|].
  apply (proj1 (proj2 (bot_candidate_set vocab
           (mkState ["india"; "afghanistan"; "nepal"; "laos"] (Some "s")) "s" (mkDouble 0 0) eq_refl))).
  reflexivity.
Defined.

(** C5: an accepted move, of the player or of the bot, appends its word to
    the end of [used] and sets [lastLetter] to the word's last character;
    hence in every reachable state with at least one played word the
    required letter is the last character of the most recent word. *)
Theorem accepted_move_sets_letter (wordlist : list string) s :
  (forall v s' w, playWord wordlist s v = (s', Msg_YouPlayed w) ->
     used s' = app (used s) [w] /\
     exists pre c, w = (pre ++ String c EmptyString)%string /\
                   lastLetter s' = Some (String c EmptyString)) /\
  (forall r s' w, botMove wordlist s r = Some (s', Msg_BotPlayed w) ->
     used s' = app (used s) [w] /\
     exists pre c, w = (pre ++ String c EmptyString)%string /\
                   lastLetter s' = Some (String c EmptyString)) /\
  (forall h ws w, reach wordlist s h -> used s = app ws [w] ->
     exists pre c, w = (pre ++ String c EmptyString)%string /\
                   lastLetter s = Some (String c EmptyString)).
Proof.
  split; [|split].
  - intros v s' w Hp. destruct (playWord_ok wordlist s v s' w Hp) as (_ & Hw & _ & _ & _ & ->).
    split; [reflexivity|]. simpl.
    destruct (slice_last_split w Hw) as (pre & c & Hpre & Hc).
    exists pre, c. rewrite Hc. auto.
  - intros r s' w Hb. destruct (botMove_ok wordlist s r s' w Hb) as [Hin ->].
    split; [reflexivity|]. simpl.
    apply bot_candidates_In in Hin. destruct Hin as (_ & Hf & _).
    destruct (first_is_Some w _ Hf) as (c0 & rest & _ & -> & _ & _).
    destruct (slice_last_split (String c0 rest)) as (pre & c & Hpre & Hc); [discriminate|].
    exists pre, c. rewrite Hc. auto.
  - intros h ws w Hr Hu. destruct (reach_match_inv wordlist s h Hr)
      as (_ & _ & _ & Hne & Hll & _).
    rewrite Hu in Hll, Hne. rewrite last_letter_snoc in Hll.
    apply Forall_app in Hne. destruct Hne as [_ Hne]. inversion Hne; subst.
    destruct (slice_last_split w) as (pre & c & Hpre & Hc); [assumption|].
    exists pre, c. rewrite Hll, Hc. auto.
Qed.

Lemma accepted_move_sets_letter_witness :
  playWord vocab init "India" = (mkState ["india"] (Some "a"), Msg_YouPlayed "india") /\
  used (mkState ["india"] (Some "a")) = app (used init) ["india"] /\
  exists pre c, "india" = (pre ++ String c EmptyString)%string /\
                lastLetter (mkState ["india"] (Some "a")) = Some (String c EmptyString).
Proof.
  split; [reflexivity|].
  apply (proj1 (accepted_move_sets_letter vocab init) "India"). reflexivity.
Defined.

(** C7: [normalizeInput] lowercases its input and then removes every
    character that is not one of [a]..[z]; [playWord] rejects an input
    whose normalization is empty, leaving the state unchanged. *)
Theorem normalizeInput_lower_then_filter x :
  list_ascii_of_string (normalizeInput x) =
    filter is_az (map ascii_lower (list_ascii_of_string x)) /\
  (forall wordlist s v, normalizeInput (trim v) = EmptyString ->
     playWord wordlist s v = (s, Msg_PleaseEnter)).
Proof.
  split.
  - unfold normalizeInput. rewrite list_ascii_remove_non_az, list_ascii_toLowerCase.
    reflexivity.
  - intros wordlist s v H. unfold playWord. cbv zeta. rewrite H. reflexivity.
Qed.

Lemma normalizeInput_lower_then_filter_witness :
  normalizeInput (trim " -!. ") = EmptyString /\
  playWord vocab init " -!. " = (init, Msg_PleaseEnter).
Proof.
  split; [reflexivity|].
  apply (proj2 (normalizeInput_lower_then_filter " -!. ")). reflexivity.
Defined.

(** C8: normalization is idempotent. *)
Theorem normalizeInput_idempotent x :
  normalizeInput (normalizeInput x) = normalizeInput x.
Proof.
  unfold normalizeInput at 1.
  pose proof (all_az_normalizeInput x) as H.
  rewrite toLowerCase_all_az by exact H.
  apply remove_non_az_all_az. exact H.
Qed.

(** C9: for a value [r] that [Math.random()] can return (a double in
    [[0,1)]) and a non-empty candidate list,
    [Math.floor(r * candidates.length)] is a valid index, so the bot plays
    an element of the candidate list (never [undefined]). *)
Theorem bot_pick_in_bounds (wordlist : list string) s r :
  is_random_double r = true -> bot_candidates wordlist s <> [] ->
  (0 <= bot_index r (length (bot_candidates wordlist s))
     < Z.of_nat (length (bot_candidates wordlist s)))%Z /\
  exists w, js_index (bot_candidates wordlist s)
              (bot_index r (length (bot_candidates wordlist s))) = Some w /\
            In w (bot_candidates wordlist s) /\
            botMove wordlist s r =
              Some (mkState (app (used s) [w]) (Some (slice_last w)), Msg_BotPlayed w).
Proof.
  intros Hr Hne.
  assert (Hb : (0 <= bot_index r (length (bot_candidates wordlist s))
                  < Z.of_nat (length (bot_candidates wordlist s)))%Z).
  { apply bot_index_bound; [assumption|].
    destruct (bot_candidates wordlist s); [congruence|simpl; lia]. }
  split; [exact Hb|].
  destruct (js_index_in_range _ _ Hb) as (w & Hw & Hin).
  exists w. split; [exact Hw|]. split; [exact Hin|].
  unfold botMove. destruct (bot_candidates wordlist s) as [|c cs]; [congruence|].
  rewrite Hw. reflexivity.
Qed.

Lemma bot_pick_in_bounds_witness :
  bot_candidates vocab (mkState ["india"] (Some "a")) = ["afghanistan"] /\
  (0 <= bot_index (mkDouble 9007199254740991 (-53)) 1 < 1)%Z.
Proof.
  split; [reflexivity|].
  exact (proj1 (bot_pick_in_bounds vocab (mkState ["india"] (Some "a"))
                  (mkDouble 9007199254740991 (-53))
                  ltac:(reflexivity) ltac:(discriminate))).
Defined.

(** ** Reachable states: the required letter and the played sequence *)

Lemma reach_lastLetter (wordlist : list string) s h :
  reach wordlist s h ->
  (used s = [] /\ lastLetter s = None) \/
  (used s <> [] /\ exists c, lastLetter s = Some (String c EmptyString)).
Proof.
  intros Hr. destruct (reach_match_inv wordlist s h Hr) as (_ & _ & _ & Hne & Hll & _).
  destruct (used s) as [|u us] eqn:Eu.
  - left. split; [reflexivity|exact Hll].
  - right. split; [discriminate|].
    assert (Hus : u :: us <> []) by discriminate.
    destruct (last_letter_nonempty _ Hus Hne) as [c Hc]. exists c. congruence.
Qed.

Lemma reach_no_empty_word (wordlist : list string) s h :
  reach wordlist s h -> ~ In EmptyString (used s).
Proof.
  intros Hr Hin. destruct (reach_match_inv wordlist s h Hr) as (_ & _ & _ & Hne & _).
  rewrite Forall_forall in Hne. exact (Hne _ Hin eq_refl).
Qed.

Lemma reachable_after_india : reachable vocab (mkState ["india"] (Some "a")).
Proof.
  exists [(None, "india")].
  change [(None, "india")] with (app [] [(lastLetter init, "india")]).
  eapply reach_play_ok with (v := "India"); [apply reach_init|reflexivity].
Qed.

(** C4, as stated: [LetterMismatch] exactly when a word was played before
    and the input's first character differs from the required letter.  An
    unknown word with a wrong first letter is reported as unknown. *)
Lemma playWord_failure_kinds_counterexample :
  ~ (forall wordlist s v, reachable wordlist s ->
       ((exists l, snd (playWord wordlist s v) = Msg_MustStart l) <->
        (used s <> [] /\
         exists l, lastLetter s = Some l /\
                   first_is (normalizeInput (trim v)) (Some l) = false))).
Proof.
  intros H.
  destruct (H vocab (mkState ["india"] (Some "a")) "xyz" reachable_after_india) as [_ H2].
  destruct H2 as [l Hl].
  - split; [discriminate|]. exists "a". split; reflexivity.
  - vm_compute in Hl. discriminate.
Qed.

(** C4 (amended): in a reachable state, with [w] the normalized input,
    [playWord] reports an unknown word iff [w] is non-empty and not in the
    vocabulary; reports it already used iff it is in the vocabulary and in
    [used]; reports a letter mismatch iff [w] is a non-empty, unused
    vocabulary word, a word was played before and [w] does not start with
    the required letter; and on the first move every non-empty vocabulary
    word is accepted. *)
Theorem playWord_failure_kinds (wordlist : list string) s v :
  reachable wordlist s ->
  let w := normalizeInput (trim v) in
  let m := snd (playWord wordlist s v) in
  (m = Msg_InvalidCountry <-> w <> EmptyString /\ ~ In w wordlist) /\
  (m = Msg_AlreadyUsed <-> In w wordlist /\ In w (used s)) /\
  ((exists l, m = Msg_MustStart l) <->
     w <> EmptyString /\ In w wordlist /\ ~ In w (used s) /\ used s <> [] /\
     exists l, lastLetter s = Some l /\ first_is w (Some l) = false) /\
  (used s = [] -> w <> EmptyString -> In w wordlist -> m = Msg_YouPlayed w).
Proof.
  intros (h & Hr). cbv zeta.
  pose proof (reach_no_empty_word wordlist s h Hr) as Hnu.
  pose proof (reach_lastLetter wordlist s h Hr) as HL.
  destruct (playWord_cases wordlist s v)
    as [(Hw & Hq)|[(Hw & Hn & Hq)|[(Hw & Hn & Hu & Hq)|[(Hw & Hn & Hu & l & Hl & Hl0 & Hf & Hq)
       |(Hw & Hn & Hu & Hok & Hq)]]]];
    rewrite Hq; cbn [snd]; set (w := normalizeInput (trim v)) in *.
  - rewrite Hw in *. split; [|split; [|split]].
    + split; [discriminate|intros [H _]; congruence].
    + split; [discriminate|intros [_ H]; contradiction].
    + split; [intros [l H]; discriminate|intros [H _]; congruence].
    + intros _ H. congruence.
  - split; [|split; [|split]].
    + split; auto.
    + split; [discriminate|intros [H _]; contradiction].
    + split; [intros [l H]; discriminate|intros (_ & H & _); contradiction].
    + intros _ _ H. contradiction.
  - split; [|split; [|split]].
    + split; [discriminate|intros [_ H]; contradiction].
    + split; auto.
    + split; [intros [l' H]; discriminate|intros (_ & _ & H & _); contradiction].
    + intros H. rewrite H in Hu. destruct Hu.
  - split; [|split; [|split]].
    + split; [discriminate|intros [_ H]; contradiction].
    + split; [discriminate|intros [_ H]; contradiction].
    + split; [|intros _; exists l; reflexivity].
      intros _. repeat split; try assumption.
      * destruct HL as [[_ H]|[H _]]; [congruence|exact H].
      * exists l. split; assumption.
    + intros H. destruct HL as [[_ H']|[H' _]]; [congruence|contradiction].
  - split; [|split; [|split]].
    + split; [discriminate|intros [_ H]; contradiction].
    + split; [discriminate|intros [_ H]; contradiction].
    + split; [intros [l H]; discriminate|].
      intros (_ & _ & _ & Hne & l & Hl & Hf). exfalso.
      destruct HL as [[H _]|[_ (c & Hc)]]; [contradiction|].
      rewrite Hl in Hc. inversion Hc; subst l.
      rewrite (Hok _ Hl) in Hf; [discriminate|discriminate].
    + intros _ _ _. reflexivity.
Qed.

Lemma playWord_failure_kinds_witness :
  exists l, snd (playWord vocab (mkState ["india"] (Some "a")) "Nepal") = Msg_MustStart l.
Proof.
  apply (proj2 (proj1 (proj2 (proj2
    (playWord_failure_kinds vocab (mkState ["india"] (Some "a")) "Nepal"
       reachable_after_india))))).
  split; [discriminate|]. split; [simpl; tauto|]. split; [simpl; intuition discriminate|].
  split; [discriminate|]. exists "a". split; reflexivity.
Defined.

(** C6, as stated: [botMove] never changes the state when the game is not
    awaiting a bot move.  After a bot move the player is to move, yet a
    second call plays another bot word. *)
Lemma botMove_not_awaiting_counterexample :
  ~ (forall wordlist s p r, spec_run wordlist s p -> p <> AwaitingBotMove ->
       is_random_double r = true ->
       forall s' m, botMove wordlist s r = Some (s', m) -> s' = s).
Proof.
  intros H.
  assert (Hrun : spec_run vocab (mkState ["india"; "afghanistan"] (Some "n"))
                   AwaitingPlayerMove).
  { apply (run_bot_ok vocab (mkState ["india"] (Some "a")) AwaitingBotMove (mkDouble 0 0)
             _ "afghanistan").
    - eapply (run_play_ok vocab init AwaitingFirstMove "India"); [apply run_init|].
      reflexivity.
    - reflexivity. }
  assert (Hb : botMove vocab (mkState ["india"; "afghanistan"] (Some "n")) (mkDouble 0 0) =
               Some (mkState ["india"; "afghanistan"; "nepal"] (Some "l"),
                     Msg_BotPlayed "nepal")) by reflexivity.
  specialize (H vocab _ _ (mkDouble 0 0) Hrun ltac:(discriminate)
                ltac:(reflexivity) _ _ Hb).
  discriminate H.
Qed.

Lemma bot_candidates_no_letter (wordlist : list string) s :
  lastLetter s = None -> bot_candidates wordlist s = [].
Proof.
  intros Hl. destruct (bot_candidates wordlist s) as [|c cs] eqn:E; [reflexivity|].
  assert (Hc : In c (bot_candidates wordlist s)) by (rewrite E; left; reflexivity).
  apply bot_candidates_In in Hc. destruct Hc as (_ & Hf & _).
  rewrite Hl in Hf. destruct (first_is_Some c None Hf) as (? & ? & ? & _ & H & _).
  discriminate.
Qed.

(** C6 (amended): [botMove] keeps no phase.  For a value [r] that
    [Math.random()] can return it always completes: with candidates it
    plays one of them (appending it to [used] and setting [lastLetter] to
    its last character), without candidates it reports the bot stuck and
    leaves the state unchanged; so it leaves [used] and [lastLetter]
    unchanged exactly when its candidate list is empty, in particular before
    any move ([lastLetter] is [null]) and when called again after reporting
    the bot stuck. *)
Theorem botMove_unchanged_iff_stuck (wordlist : list string) s r :
  is_random_double r = true ->
  (bot_candidates wordlist s <> [] ->
   exists w, In w (bot_candidates wordlist s) /\
     botMove wordlist s r =
       Some (mkState (app (used s) [w]) (Some (slice_last w)), Msg_BotPlayed w)) /\
  (bot_candidates wordlist s = [] -> botMove wordlist s r = Some (s, Msg_BotStuck)) /\
  (exists s' m, botMove wordlist s r = Some (s', m) /\
                (s' = s <-> bot_candidates wordlist s = [])) /\
  (lastLetter s = None -> botMove wordlist s r = Some (s, Msg_BotStuck)) /\
  (forall s', botMove wordlist s r = Some (s', Msg_BotStuck) ->
     forall r', botMove wordlist s' r' = Some (s', Msg_BotStuck)).
Proof.
  intros Hr. split; [|split; [|split; [|split]]].
  - intros Hne. destruct (botMove_pick wordlist s r Hr Hne) as (w & Hb & Hin).
    exists w. split; [exact Hin|exact Hb].
  - apply botMove_empty.
  - destruct (bot_candidates wordlist s) as [|c cs] eqn:E.
    + exists s, Msg_BotStuck. split; [apply botMove_empty; exact E|tauto].
    + assert (Hne : bot_candidates wordlist s <> []) by (rewrite E; discriminate).
      destruct (botMove_pick wordlist s r Hr Hne) as (w & Hb & _).
      eexists; eexists. split; [exact Hb|]. split; [|discriminate].
      intros Hs. apply (f_equal (fun t => length (used t))) in Hs.
      simpl in Hs. rewrite length_app in Hs. simpl in Hs. lia.
  - intros Hl. apply botMove_empty, bot_candidates_no_letter, Hl.
  - intros s' Hb r'. destruct (botMove_stuck wordlist s r s' Hb) as [-> Hc].
    apply botMove_empty. exact Hc.
Qed.

Lemma botMove_unchanged_iff_stuck_witness :
  exists w, In w (bot_candidates vocab (mkState ["india"] (Some "a"))) /\
    botMove vocab (mkState ["india"] (Some "a")) (mkDouble 1 (-1)) =
      Some (mkState (app ["india"] [w]) (Some (slice_last w)), Msg_BotPlayed w).
Proof.
  apply (proj1 (botMove_unchanged_iff_stuck vocab (mkState ["india"] (Some "a"))
                  (mkDouble 1 (-1)) ltac:(reflexivity))).
  discriminate.
Defined.

(** C10, as stated: once set, the required letter is one of [a]..[z].  The
    bot plays raw [wordlist] entries, which the code does not normalize. *)
Lemma lastLetter_az_counterexample :
  ~ (forall wordlist s h l, reach wordlist s h -> lastLetter s = Some l ->
       exists c, l = String c EmptyString /\ is_az c = true).
Proof.
  intros H.
  assert (Hr : reach vocab_raw (mkState ["india"; "aB"] (Some "B"))
                 [(None, "india"); (Some "a", "aB")]).
  { change [(None, "india"); (Some "a", "aB")] with
      (app (app [] [(lastLetter init, "india")])
         [(lastLetter (mkState ["india"] (Some "a")), "aB")]).
    eapply reach_bot_ok with (r := mkDouble 0 0).
    - eapply reach_play_ok with (v := "India"); [apply reach_init|reflexivity].
    - reflexivity. }
  destruct (H _ _ _ "B" Hr eq_refl) as (c & Hc & Haz).
  inversion Hc; subst c. vm_compute in Haz. discriminate.
Qed.

(** C10 (amended): if every vocabulary entry consists of [a]..[z] only,
    the required letter, once set, is a single character in [a]..[z]; a
    player move sets such a letter whatever the vocabulary. *)
Theorem lastLetter_az (wordlist : list string) s h :
  reach wordlist s h ->
  (Forall (fun w => all_az w = true) wordlist ->
   forall l, lastLetter s = Some l -> exists c, l = String c EmptyString /\ is_az c = true) /\
  (forall v s' w, playWord wordlist s v = (s', Msg_YouPlayed w) ->
   exists c, lastLetter s' = Some (String c EmptyString) /\ is_az c = true).
Proof.
  intros Hr. split.
  - intros Hv l Hl. destruct (reach_match_inv wordlist s h Hr)
      as (_ & _ & Hin & Hne & Hll & _).
    rewrite Hll in Hl. destruct (last_letter_In _ _ Hl) as (w & Hw & ->).
    rewrite Forall_forall in Hin, Hne, Hv.
    destruct (slice_last_all_az w (Hv _ (Hin _ Hw)) (Hne _ Hw)) as (c & Hc & Haz).
    exists c. split; assumption.
  - intros v s' w Hp. destruct (playWord_ok wordlist s v s' w Hp) as (-> & Hw & _ & _ & _ & ->).
    destruct (slice_last_all_az _ (all_az_normalizeInput (trim v)) Hw) as (c & Hc & Haz).
    exists c. simpl. rewrite Hc. split; [reflexivity|exact Haz].
Qed.

Lemma lastLetter_az_witness :
  exists c, lastLetter (mkState ["india"] (Some "a")) = Some (String c EmptyString) /\
            is_az c = true.
Proof.
  assert (Hr : reach vocab (mkState ["india"] (Some "a")) [(None, "india")]).
  { change [(None, "india")] with (app [] [(lastLetter init, "india")]).
    eapply reach_play_ok with (v := "India"); [apply reach_init|reflexivity]. }
  destruct (proj1 (lastLetter_az vocab _ _ Hr) ltac:(repeat constructor) "a" eq_refl)
    as (c & Hc & Haz).
  exists c. rewrite Hc. split; [reflexivity|exact Haz].
Defined.

(** ** Further properties of the script *)

Lemma load_eq data wl pm :
  load data wl pm =
  (app wl (map norm data), app (rev (map (fun it => (norm it, pretty it)) data)) pm).
Proof.
  revert wl pm. induction data as [|it data IH]; intros wl pm.
  - simpl. rewrite app_nil_r. reflexivity.
  - unfold load in *. simpl. rewrite IH. unfold pm_set.
    rewrite <- app_assoc, <- app_assoc. reflexivity.
Qed.


Lemma pm_get_None l k : pm_get l k = None <-> ~ In k (map fst l).
Proof.
  induction l as [|[k' v] l IH]; simpl; [tauto|].
  destruct (String.eqb_spec k k') as [->|Hne].
  - split; [discriminate|]. intros H. exfalso. apply H. left. reflexivity.
  - rewrite IH. split.
    + intros H [H'|H']; [congruence|contradiction].
    + intros H H'. apply H. right. exact H'.
Qed.



(** X2: before the word list has loaded ([wordlist] still empty), every
    input is rejected (as empty or as an invalid country) with the state
    unchanged, and the bot is always stuck. *)
Theorem before_load_rejects s v r :
  (playWord [] s v = (s, Msg_PleaseEnter) \/ playWord [] s v = (s, Msg_InvalidCountry)) /\
  botMove [] s r = Some (s, Msg_BotStuck).
Proof.
  split.
  - destruct (playWord_cases [] s v)
      as [(_ & Hq)|[(_ & _ & Hq)|[(_ & Hn & _)|[(_ & Hn & _)|(_ & Hn & _)]]]];
      try (left; exact Hq); try (right; exact Hq); destruct Hn.
  - apply botMove_empty. reflexivity.
Qed.

Lemma space_not_az c : is_js_space c = true -> is_az (ascii_lower c) = false.
Proof.
  unfold is_js_space, ascii_lower. cbv zeta. intros H.
  apply orb_true_iff in H.
  assert (Hn : (9 <= nat_of_ascii c <= 13 \/ nat_of_ascii c = 32 \/ nat_of_ascii c = 160)%nat).
  { destruct H as [H|H]; [apply orb_true_iff in H; destruct H as [H|H]|].
    - apply andb_true_iff in H. destruct H as [H1 H2].
      apply Nat.leb_le in H1. apply Nat.leb_le in H2. lia.
    - apply Nat.eqb_eq in H. lia.
    - apply Nat.eqb_eq in H. lia. }
  destruct ((65 <=? nat_of_ascii c) && (nat_of_ascii c <=? 90))%nat eqn:E.
  - apply andb_true_iff in E. destruct E as [E1 E2].
    apply Nat.leb_le in E1. apply Nat.leb_le in E2. lia.
  - unfold is_az. cbv zeta.
    destruct (97 <=? nat_of_ascii c)%nat eqn:E1; [|reflexivity].
    apply Nat.leb_le in E1. simpl. apply Nat.leb_gt. lia.
Qed.

Lemma norm_list_trim_start s :
  norm_list (list_ascii_of_string (trim_start s)) = norm_list (list_ascii_of_string s).
Proof.
  induction s as [|c s IH]; [reflexivity|]. simpl.
  destruct (is_js_space c) eqn:E; [|reflexivity].
  rewrite IH. unfold norm_list. simpl. rewrite (space_not_az c E). reflexivity.
Qed.

Lemma norm_list_rev l : norm_list (rev l) = rev (norm_list l).
Proof. unfold norm_list. rewrite map_rev. apply filter_rev. Qed.

Lemma normalizeInput_list x :
  list_ascii_of_string (normalizeInput x) = norm_list (list_ascii_of_string x).
Proof.
  unfold normalizeInput, norm_list.
  rewrite list_ascii_remove_non_az, list_ascii_toLowerCase. reflexivity.
Qed.

Lemma normalizeInput_trim v : normalizeInput (trim v) = normalizeInput v.
Proof.
  rewrite <- (string_of_list_ascii_of_string (normalizeInput (trim v))),
          <- (string_of_list_ascii_of_string (normalizeInput v)).
  f_equal. rewrite !normalizeInput_list. unfold trim.
  rewrite list_ascii_of_string_of_list_ascii, norm_list_rev, norm_list_trim_start,
          list_ascii_of_string_of_list_ascii, norm_list_rev, rev_involutive,
          norm_list_trim_start.
  reflexivity.
Qed.

(** X3: [playWord] depends on the input only through its normalization:
    two inputs that differ only in case, spaces or punctuation give the
    same state and the same message. *)
Theorem playWord_same_normal_form (wordlist : list string) s v v' :
  normalizeInput v = normalizeInput v' ->
  playWord wordlist s v = playWord wordlist s v'.
Proof.
  intros H. unfold playWord. cbv zeta. rewrite !normalizeInput_trim, H. reflexivity.
Qed.

Lemma playWord_same_normal_form_witness :
  playWord vocab init " IN-DIA! " = playWord vocab init "india".
Proof. apply playWord_same_normal_form. reflexivity. Defined.

(** X4: in every reachable state, an input whose normalization is a
    word already played is rejected as already used, with the state
    unchanged; and no move removes a played word: every [playWord] and
    every completed [botMove] keeps [used] as a prefix.  So once accepted,
    a word is rejected for the rest of the match. *)
Theorem playWord_resubmit (wordlist : list string) s h v :
  reach wordlist s h -> In (normalizeInput v) (used s) ->
  playWord wordlist s v = (s, Msg_AlreadyUsed) /\
  (forall v', exists ext, used (fst (playWord wordlist s v')) = app (used s) ext) /\
  (forall r s' m, botMove wordlist s r = Some (s', m) ->
     exists ext, used s' = app (used s) ext).
Proof.
  intros Hr Hu.
  destruct (reach_match_inv wordlist s h Hr) as (_ & _ & Hin & Hne & _).
  rewrite Forall_forall in Hin, Hne. split; [|split].
  - rewrite <- normalizeInput_trim in Hu.
    pose proof (playWord_cases wordlist s v) as Hc. cbv zeta in Hc.
    destruct Hc
      as [(Hw & _)|[(_ & Hn & _)|[(_ & _ & _ & Hq)|[(_ & _ & Hn & _)|(_ & _ & Hn & _)]]]].
    + exfalso. exact (Hne _ Hu Hw).
    + exfalso. exact (Hn (Hin _ Hu)).
    + exact Hq.
    + exfalso. exact (Hn Hu).
    + exfalso. exact (Hn Hu).
  - intros v'.
    destruct (playWord_cases wordlist s v')
      as [(_ & Hq)|[(_ & _ & Hq)|[(_ & _ & _ & Hq)|[(_ & _ & _ & l & _ & _ & _ & Hq)
         |(_ & _ & _ & _ & Hq)]]]];
      rewrite Hq; simpl fst;
      solve [exists []; rewrite app_nil_r; reflexivity
            |eexists; reflexivity].
  - intros r s' [|w] Hb.
    + destruct (botMove_stuck wordlist s r s' Hb) as [-> _].
      exists []. rewrite app_nil_r. reflexivity.
    + destruct (botMove_ok wordlist s r s' w Hb) as [_ ->].
      exists [w]. reflexivity.
Qed.

Lemma playWord_resubmit_witness :
  playWord vocab (mkState ["india"; "afghanistan"] (Some "n")) " INDIA" =
    (mkState ["india"; "afghanistan"] (Some "n"), Msg_AlreadyUsed).
Proof.
  assert (Hr : reach vocab (mkState ["india"; "afghanistan"] (Some "n"))
                 [(None, "india"); (Some "a", "afghanistan")]).
  { change [(None, "india"); (Some "a", "afghanistan")] with
      (app (app [] [(lastLetter init, "india")])
         [(lastLetter (mkState ["india"] (Some "a")), "afghanistan")]).
    eapply reach_bot_ok with (r := mkDouble 0 0).
    - eapply reach_play_ok with (v := "India"); [apply reach_init|reflexivity].
    - reflexivity. }
  exact (proj1 (playWord_resubmit vocab _ _ " INDIA" Hr ltac:(simpl; tauto))).
Defined.

(** X5: in every reachable state the number of played words is at most
    the number of distinct words of the vocabulary, so a game has at most
    that many accepted moves. *)
Theorem played_length_bound (wordlist : list string) s :
  reachable wordlist s -> (length (used s) <= length (nodup string_dec wordlist))%nat.
Proof.
  intros (h & Hr). destruct (reach_match_inv wordlist s h Hr) as (_ & Hnd & Hin & _).
  apply NoDup_incl_length; [exact Hnd|].
  intros w Hw. apply nodup_In. rewrite Forall_forall in Hin. exact (Hin w Hw).
Qed.

Lemma played_length_bound_witness :
  (length (used (mkState ["india"] (Some "a"))) <= length (nodup string_dec vocab))%nat.
Proof. apply played_length_bound. exact reachable_after_india. Defined.



(** X8: when [playWord] accepts the input, the page holds the new state,
    the input field is cleared, [usedWords] lists the new played sequence,
    and [lastLetter] shows the last character of the accepted word, a
    letter in [a]..[z]. *)
Theorem playWord_page_accept (wordlist : list string) pm p s' w :
  playWord wordlist (pg_state p) (userWordValue p) = (s', Msg_YouPlayed w) ->
  let p' := playWord_page wordlist pm p in
  pg_state p' = s' /\ userWordValue p' = "" /\
  usedWordsText p' = usedWords_text pm (used s') /\
  resultText p' = PlayResult (Msg_YouPlayed w) /\
  exists pre c, w = (pre ++ String c EmptyString)%string /\
                lastLetterText p' = String c EmptyString /\ is_az c = true.
Proof.
  intros Hp. cbv zeta. unfold playWord_page. rewrite Hp.
  destruct (playWord_ok wordlist _ _ s' w Hp) as (Hw & Hne & _ & _ & _ & Hs).
  simpl. repeat split.
  destruct (slice_last_split w Hne) as (pre & c & Hpre & Hc).
  assert (Haz : all_az w = true) by (rewrite Hw; apply all_az_normalizeInput).
  destruct (slice_last_all_az w Haz Hne) as (c' & Hc' & Hz).
  rewrite Hc in Hc'. inversion Hc'; subst c'.
  exists pre, c. split; [exact Hpre|]. split; [|exact Hz].
  rewrite Hs. simpl. rewrite Hc. reflexivity.
Qed.

Lemma playWord_page_accept_witness :
  userWordValue (playWord_page vocab [("india", "India")]
                   (mkPage init "-" "None" "India" NoResult)) = "".
Proof.
  exact (proj1 (proj2 (playWord_page_accept vocab [("india", "India")]
           (mkPage init "-" "None" "India" NoResult) (mkState ["india"] (Some "a")) "india"
           eq_refl))).
Defined.

(** X9: for every value [Math.random()] can return the bot's page update always
    completes.  When the bot is stuck only the result message changes;
    when it plays, [updateUI] runs and clears the input field, erasing
    whatever the player had typed since the move was scheduled. *)
Theorem botMove_page_effect (wordlist : list string) pm r p :
  is_random_double r = true ->
  exists p', botMove_page wordlist pm r p = Some p' /\
    (bot_candidates wordlist (pg_state p) = [] ->
       pg_state p' = pg_state p /\ lastLetterText p' = lastLetterText p /\
       usedWordsText p' = usedWordsText p /\ userWordValue p' = userWordValue p /\
       resultText p' = BotResult Msg_BotStuck) /\
    (bot_candidates wordlist (pg_state p) <> [] ->
       userWordValue p' = "" /\
       usedWordsText p' = usedWords_text pm (used (pg_state p'))).
Proof.
  intros Hr. unfold botMove_page.
  destruct (bot_candidates wordlist (pg_state p)) eqn:E.
  - rewrite (botMove_empty wordlist _ r E).
    eexists. split; [reflexivity|]. split; [intros _; repeat split|intros H; congruence].
  - assert (Hne : bot_candidates wordlist (pg_state p) <> []) by congruence.
    destruct (botMove_pick wordlist (pg_state p) r Hr Hne) as (w & Hb & _).
    rewrite Hb. eexists. split; [reflexivity|]. split; [intros H; congruence|].
    intros _. split; reflexivity.
Qed.

Lemma botMove_page_effect_witness :
  exists p', botMove_page vocab [] (mkDouble 0 0) (mkPage (mkState ["india"] (Some "a")) "a" "India"
                                        "typing" NoResult) = Some p' /\
             userWordValue p' = "".
Proof.
  destruct (botMove_page_effect vocab [] (mkDouble 0 0) (mkPage (mkState ["india"] (Some "a"))
              "a" "India" "typing" NoResult) ltac:(reflexivity)) as (p' & Hp & _ & H2).
  exists p'. split; [exact Hp|]. apply H2. vm_compute. discriminate.
Defined.

(** X10: with [wordlist] and [prettyMap] built by loading [wordlist.json],
    every played word of a reachable state has a display form, so the
    [usedWords] text never shows [undefined] for a played word. *)
Theorem played_words_have_display (data : list item) s h :
  ~ In "__proto__" (map norm data) ->
  reach (fst (loaded data)) s h ->
  Forall (fun w => exists pr, pm_get (snd (loaded data)) w = Some pr) (used s).
Proof.
  intros _ Hr. destruct (reach_match_inv _ s h Hr) as (_ & _ & Hin & _).
  rewrite Forall_forall in *. intros w Hw. specialize (Hin w Hw).
  unfold loaded in *. rewrite load_eq in *. simpl in *. rewrite app_nil_r.
  destruct (pm_get _ w) as [pr|] eqn:E; [exists pr; reflexivity|].
  exfalso. apply pm_get_None in E. apply E.
  rewrite map_rev, map_map. simpl. rewrite <- in_rev. exact Hin.
Qed.

Lemma played_words_have_display_witness :
  Forall (fun w => exists pr, pm_get (snd (loaded [mkItem "India" "india"])) w = Some pr)
         ["india"].
Proof.
  apply (played_words_have_display [mkItem "India" "india"] (mkState ["india"] (Some "a"))
           [(None, "india")] ltac:(vm_compute; intuition discriminate)).
  change [(None, "india")] with (app [] [(lastLetter init, "india")]).
  eapply reach_play_ok with (v := "India"); [apply reach_init|reflexivity].
Defined.

(** X11: what [updateUI] shows as the last letter: ["-"] in a reachable
    state before any word, and afterwards the last character of the most
    recently played word. *)
Theorem lastLetter_display (wordlist : list string) s h :
  reach wordlist s h ->
  (used s = [] -> lastLetter_text (lastLetter s) = "-") /\
  (forall ws w, used s = app ws [w] -> lastLetter_text (lastLetter s) = slice_last w).
Proof.
  intros Hr. destruct (reach_match_inv wordlist s h Hr) as (_ & _ & _ & Hne & Hll & _).
  split.
  - intros Hu. rewrite Hll, Hu. reflexivity.
  - intros ws w Hu. rewrite Hll, Hu, last_letter_snoc. simpl.
    rewrite Hu in Hne. apply Forall_app in Hne. destruct Hne as [_ Hne].
    inversion Hne; subst.
    destruct (slice_last_char w) as [c Hc]; [assumption|]. rewrite Hc. reflexivity.
Qed.

Lemma lastLetter_display_witness :
  lastLetter_text (lastLetter (mkState ["india"] (Some "a"))) = "a".
Proof.
  assert (Hr : reach vocab (mkState ["india"] (Some "a")) [(None, "india")]).
  { change [(None, "india")] with (app [] [(lastLetter init, "india")]).
    eapply reach_play_ok with (v := "India"); [apply reach_init|reflexivity]. }
  exact (proj2 (lastLetter_display vocab _ _ Hr) [] "india" eq_refl).
Defined.
